(** * Rasterization of segments and circles on an integer grid

    A shallow embedding of [3lab/rasterization.py]: the two Bresenham
    rasterizers [bresenham_line] and [bresenham_circle], together with
    the properties of the point lists they return.

    Python integers are unbounded, so coordinates are [Z].  A point is
    the Python tuple [(x, y)]; the returned list [points] is a [list] in
    emission order ([points.append] adds at the end). *)

From Equations Require Import Equations.
From Stdlib Require Import ZArith List Lia Bool Permutation.
Import ListNotations.
Local Open Scope Z_scope.

Definition point : Type := (Z * Z)%type.

(** ** Python builtins used by the source *)

(** [range_from lo n] is the list [lo, lo+1, ..., lo+n-1]. *)
Fixpoint range_from (lo : Z) (n : nat) : list Z :=
  match n with
  | O => []
  | S n' => lo :: range_from (lo + 1) n'
  end.

(** [range(lo, hi)]: the integers [lo <= i < hi] in ascending order,
    empty when [hi <= lo]. *)
Definition range (lo hi : Z) : list Z := range_from lo (Z.to_nat (hi - lo)).

(** [for v in xs: st = body st v], with the loop-carried variables
    gathered in [st]. *)
Definition for_each {St A : Type}
    (body : St -> A -> St) (xs : list A) (st : St) : St :=
  fold_left body xs st.

(** A Python call either returns a value or raises. *)
Inductive exn : Type :=
| InvalidArgument.

Inductive outcome (A : Type) : Type :=
| Returned (a : A)
| Raised (e : exn).
Arguments Returned {A} a.
Arguments Raised {A} e.

(** ** [bresenham_line] *)

(** The variables the main loop of [bresenham_line] carries from one
    iteration to the next. *)
Record line_state : Type := mk_line_state {
  ls_points : list point;
  ls_error : Z;
  ls_y : Z
}.

(** One iteration of [for x in range(x0, x1 + 1)]:
    emit the current cell (transposed back when [steep]), then update
    the error accumulator and possibly step [y]. *)
Definition line_body (steep : bool) (dx delta_error y_step : Z)
    (st : line_state) (x : Z) : line_state :=
  let points :=
    ls_points st ++ [if steep then (ls_y st, x) else (x, ls_y st)] in
  let error := ls_error st + delta_error in
  if 2 * error >=? dx
  then mk_line_state points (error - dx) (ls_y st + y_step)
  else mk_line_state points error (ls_y st).

(** The arguments are integers, on which [int] is the identity. *)
Definition bresenham_line (x0 y0 x1 y1 : Z) : list point :=
  if x0 =? x1 then
    for_each (fun points y => points ++ [(x0, y)])
             (range (Z.min y0 y1) (Z.max y0 y1 + 1)) []
  else
    let dx := Z.abs (x1 - x0) in
    let dy := Z.abs (y1 - y0) in
    let steep := dy >? dx in
    let '(x0, y0, x1, y1, dx, dy) :=
      if steep then (y0, x0, y1, x1, dy, dx) else (x0, y0, x1, y1, dx, dy) in
    let '(x0, y0, x1, y1) :=
      if x0 >? x1 then (x1, y1, x0, y0) else (x0, y0, x1, y1) in
    let error := 0 in
    let delta_error := dy in
    let y := y0 in
    let y_step := if y1 >? y0 then 1 else -1 in
    ls_points
      (for_each (line_body steep dx delta_error y_step)
                (range x0 (x1 + 1))
                (mk_line_state [] error y)).

(** ** [bresenham_circle] *)

(** The inner function [add_circle_points]: the eight reflections of the
    offset [(x, y)] about the center, in the order the source lists
    them.  The source extends the enclosing [points]; here the block is
    returned and the caller appends it. *)
Definition add_circle_points (cx cy x y : Z) : list point :=
  [ (cx + x, cy + y); (cx - x, cy + y);
    (cx + x, cy - y); (cx - x, cy - y);
    (cx + y, cy + x); (cx - y, cy + x);
    (cx + y, cy - x); (cx - y, cy - x) ].

(** [while x <= y: ...] with the loop variables [x], [y], [d] and the
    list [points] passed explicitly.  Each iteration increases [x] and
    never increases [y], so [y - x + 1] decreases. *)
Equations? circle_loop (cx cy x y d : Z) (points : list point) : list point
  by wf (Z.to_nat (y - x + 1)) lt :=
  circle_loop cx cy x y d points with Z_le_dec x y => {
    | left _ with Z_lt_dec d 0 => {
        | left _ :=
            circle_loop cx cy (x + 1) y (d + 4 * x + 6)
              (points ++ add_circle_points cx cy (x + 1) y);
        | right _ :=
            circle_loop cx cy (x + 1) (y - 1) (d + 4 * (x - y) + 10)
              (points ++ add_circle_points cx cy (x + 1) (y - 1)) };
    | right _ := points }.
Proof. all: lia. Qed.

Definition bresenham_circle (center_x center_y radius : Z) : list point :=
  let x := 0 in
  let y := radius in
  let d := 3 - 2 * radius in
  circle_loop center_x center_y x y d
    (add_circle_points center_x center_y x y).

(** The source has no [raise] and calls nothing that raises on integers:
    a call of [bresenham_circle] always returns its list. *)
Definition call_bresenham_circle (center_x center_y radius : Z)
  : outcome (list point) :=
  Returned (bresenham_circle center_x center_y radius).

(** ** Notions used to state the properties *)

(** Two cells are 8-connected neighbours (or equal). *)
Definition adjacent8 (p q : point) : Prop :=
  Z.abs (fst q - fst p) <= 1 /\ Z.abs (snd q - snd p) <= 1.

(** Every element of the list is adjacent to the next one. *)
Fixpoint connected8 (l : list point) : Prop :=
  match l with
  | [] => True
  | p :: l' =>
      match l' with
      | [] => True
      | q :: _ => adjacent8 p q /\ connected8 l'
      end
  end.

(** Squared Euclidean distance between two cells. *)
Definition sqdist (p c : point) : Z :=
  (fst p - fst c) * (fst p - fst c) + (snd p - snd c) * (snd p - snd c).

(** [round_sqrt n] is the square root of [n] rounded to the nearest
    integer: [floor (sqrt n + 1/2) = floor ((sqrt (4 n) + 1) / 2)].  The
    root of an integer is never half way between two integers, so no
    tie-breaking rule is involved. *)
Definition round_sqrt (n : Z) : Z := (Z.sqrt (4 * n) + 1) / 2.

(** Reflections about the vertical and the horizontal line through
    [(cx, cy)]. *)
Definition reflect_v (cx : Z) (p : point) : point := (2 * cx - fst p, snd p).
Definition reflect_h (cy : Z) (p : point) : point := (fst p, 2 * cy - snd p).

(** ** Invariants of the circle loop *)

(** What the loop maintains about the list: it is a non-empty sequence
    of eight-point blocks, each closed under both reflections. *)
Definition symmetric_blocks (cx cy : Z) (points : list point) : Prop :=
  Permutation (map (reflect_v cx) points) points
  /\ Permutation (map (reflect_h cy) points) points
  /\ exists k : nat, (0 < k)%nat /\ length points = (8 * k)%nat.

(** A cell is near the circle of radius [r] about [(cx, cy)] when its
    squared distance to the center lies between [r*r - r] and
    [r*r + r + 2]. *)
Definition near_radius (cx cy r : Z) (p : point) : Prop :=
  r * r - r <= sqdist p (cx, cy) <= r * r + r + 2.

(** What the loop maintains about its variables for a radius [r >= 0]:
    [d] is the sum of the circle equation at [(x + 1, y)] and at
    [(x + 1, y - 1)]; while the loop runs the current offset is within
    [y] of the circle; every emitted cell is near the circle. *)
Definition distance_inv (cx cy r : Z)
    (x y d : Z) (points : list point) : Prop :=
  0 <= x
  /\ y <= r
  /\ d = 2 * (x + 1) * (x + 1) + y * y + (y - 1) * (y - 1) - 2 * r * r
  /\ (x <= y -> - y <= x * x + y * y - r * r <= y)
  /\ Forall (near_radius cx cy r) points.

(** ** The main loop of [bresenham_line] as a recursive function *)

(** The cell appended for abscissa [x] and ordinate [y]. *)
Definition emit (steep : bool) (x y : Z) : point :=
  if steep then (y, x) else (x, y).

(** The cells the main loop emits from accumulator [error] and ordinate
    [y] over the abscissas [xs]; [line_loop_walk] below relates it to
    the loop of the source. *)
Fixpoint walk (steep : bool) (dx dy y_step : Z)
    (xs : list Z) (error y : Z) : list point :=
  match xs with
  | [] => []
  | x :: xs' =>
      emit steep x y ::
        (if 2 * (error + dy) >=? dx
         then walk steep dx dy y_step xs' (error + dy - dx) (y + y_step)
         else walk steep dx dy y_step xs' (error + dy) y)
  end.

(** Boolean comparisons met in hypotheses, turned into propositions. *)
Ltac zbool :=
  repeat match goal with
  | H : (_ =? _) = true |- _ => apply Z.eqb_eq in H
  | H : (_ =? _) = false |- _ => apply Z.eqb_neq in H
  | H : (_ >? _) = true |- _ => rewrite Z.gtb_ltb in H; apply Z.ltb_lt in H
  | H : (_ >? _) = false |- _ => rewrite Z.gtb_ltb in H; apply Z.ltb_ge in H
  end.

(** The two ways the end points of the walk are the end points of the
    segment ([bresenham_line_normal] below), with the coordinates of
    the walk substituted. *)
Ltac line_cases H :=
  let E1 := fresh "E" in
  let E2 := fresh "E" in
  unfold emit in H;
  destruct H as [[E1 E2]|[E1 E2]];
  injection E1 as <- <-; injection E2 as <- <-.

(** ** Notions used by the further properties *)

(** The cell [p] moved by [(a, b)]. *)
Definition translate (a b : Z) (p : point) : point := (fst p + a, snd p + b).

(** Reflection about the diagonal through [(cx, cy)]: the offsets to
    the center are exchanged. *)
Definition reflect_d (cx cy : Z) (p : point) : point :=
  (cx + (snd p - cy), cy + (fst p - cx)).

(** How far [p] is from the ideal line through [(x0, y0)] and
    [(x1, y1)]: the cross product of [(x1 - x0, y1 - y0)] with
    [p - (x0, y0)].  It is zero exactly on the line; divided by the
    extent along the dominant axis it is the offset of [p] from the
    line along the other axis, in cells. *)
Definition deviation (x0 y0 x1 y1 : Z) (p : point) : Z :=
  (x1 - x0) * (snd p - y0) - (y1 - y0) * (fst p - x0).

(** In the coordinates of the main loop (start [(x0, y0)], extents [dx]
    and [dy], direction [y_step]): the abscissa [px] is within the
    walk, and the ordinate [py] is within half a cell of the ideal
    line. *)
Definition on_track (dx dy y_step x0 y0 px py : Z) : Prop :=
  x0 <= px <= x0 + dx
  /\ - dx <= 2 * ((px - x0) * dy - y_step * (py - y0) * dx) < dx.

(** The list the circle loop builds from a sequence of offsets. *)
Definition blocks (cx cy : Z) (offs : list point) : list point :=
  flat_map (fun o => add_circle_points cx cy (fst o) (snd o)) offs.

(** One step of the circle loop on the offset: [x] grows by one, [y]
    stays or shrinks by one. *)
Definition arc_step (o o' : point) : Prop :=
  fst o' = fst o + 1 /\ (snd o' = snd o \/ snd o' = snd o - 1).

Fixpoint arc_chain (offs : list point) : Prop :=
  match offs with
  | [] => True
  | o :: offs' =>
      match offs' with
      | [] => True
      | o' :: _ => arc_step o o' /\ arc_chain offs'
      end
  end.

(** * Properties of [bresenham_line] *)

Lemma range_from_length lo n : length (range_from lo n) = n.
Proof.
  revert lo. induction n as [|n IH]; intros lo; simpl; [reflexivity|].
  now rewrite IH.
Qed.

Lemma range_length lo hi : Z.of_nat (length (range lo hi)) = Z.max 0 (hi - lo).
Proof. unfold range. rewrite range_from_length. lia. Qed.

(** The vertical loop appends one cell per value of [y]. *)
Lemma vertical_loop_map (x0 : Z) (ys : list Z) (acc : list point) :
  for_each (fun points y => points ++ [(x0, y)]) ys acc
  = acc ++ map (fun y => (x0, y)) ys.
Proof.
  unfold for_each. revert acc.
  induction ys as [|y ys IH]; intros acc; simpl.
  - now rewrite app_nil_r.
  - rewrite IH, <- app_assoc. reflexivity.
Qed.

Section Walk.
(** The parameters that stay fixed during the main loop. *)
Variables (steep : bool) (dx dy y_step : Z).

Lemma line_loop_walk xs st :
  ls_points (for_each (line_body steep dx dy y_step) xs st)
  = ls_points st ++ walk steep dx dy y_step xs (ls_error st) (ls_y st).
Proof.
  unfold for_each. revert st.
  induction xs as [|x xs IH]; intros st; cbn [fold_left walk].
  - now rewrite app_nil_r.
  - rewrite IH. unfold line_body, emit. cbv zeta.
    destruct (2 * (ls_error st + dy) >=? dx);
      cbn [ls_points ls_error ls_y]; rewrite <- app_assoc; reflexivity.
Qed.

Lemma walk_length xs error y :
  length (walk steep dx dy y_step xs error y) = length xs.
Proof.
  revert error y.
  induction xs as [|x xs IH]; intros error y; cbn [walk length].
  - reflexivity.
  - destruct (2 * (error + dy) >=? dx); cbn [length]; now rewrite IH.
Qed.

Lemma adjacent8_emit x y y' :
  Z.abs (y' - y) <= 1 -> adjacent8 (emit steep x y) (emit steep (x + 1) y').
Proof. unfold adjacent8, emit. destruct steep; simpl; lia. Qed.

(** Over consecutive abscissas the ordinate moves by [y_step] or not
    at all, so the emitted cells form an 8-connected path. *)
Lemma walk_connected8 n x error y :
  Z.abs y_step <= 1 ->
  connected8 (walk steep dx dy y_step (range_from x n) error y).
Proof.
  intros Hs. revert x error y.
  induction n as [|n IH]; intros x error y; [exact I|].
  cbn [range_from walk].
  destruct (2 * (error + dy) >=? dx).
  - specialize (IH (x + 1) (error + dy - dx) (y + y_step)).
    destruct n as [|n]; [exact I|].
    cbn [range_from walk] in IH |- *. split; [|exact IH].
    apply adjacent8_emit. lia.
  - specialize (IH (x + 1) (error + dy) y).
    destruct n as [|n]; [exact I|].
    cbn [range_from walk] in IH |- *. split; [|exact IH].
    apply adjacent8_emit. lia.
Qed.

(** The accumulator keeps track of how far the ordinate lags behind
    the ideal line: with [x0], [y0] the start of the walk,
    [error = (x - x0) * dy - y_step * (y - y0) * dx], and it stays
    within half a cell, [-dx <= 2 * error < dx].  At the last
    abscissa this forces [y = y0 + y_step * dy]. *)
Lemma walk_last x0 y0 n x error y :
  0 < dx -> 0 <= dy <= dx -> y_step * y_step = 1 ->
  x + Z.of_nat n = x0 + dx ->
  error = (x - x0) * dy - y_step * (y - y0) * dx ->
  - dx <= 2 * error < dx ->
  In (emit steep (x0 + dx) (y0 + y_step * dy))
     (walk steep dx dy y_step (range_from x (S n)) error y).
Proof.
  intros Hdx Hdy Hs. revert x error y.
  induction n as [|n IH]; intros x error y Hx He Hb.
  - cbn [range_from walk]. left.
    assert (He' : error = dx * (dy - y_step * (y - y0))).
    { subst error. replace (x - x0) with dx by lia. ring. }
    assert (Hk : dy - y_step * (y - y0) = 0) by nia.
    assert (Hy : y - y0 = y_step * dy).
    { replace dy with (y_step * (y - y0)) by lia.
      rewrite Z.mul_assoc, Hs. ring. }
    f_equal; lia.
  - cbn [range_from walk]. right.
    destruct (2 * (error + dy) >=? dx) eqn:Hc.
    + apply Z.geb_le in Hc.
      apply (IH (x + 1)); [lia | nia | lia].
    + rewrite Z.geb_leb in Hc. apply Z.leb_gt in Hc.
      apply (IH (x + 1)); [lia | nia | lia].
Qed.

Lemma walk_first n x error y :
  In (emit steep x y) (walk steep dx dy y_step (range_from x (S n)) error y).
Proof. cbn [range_from walk]. now left. Qed.
End Walk.

Lemma range_from_In lo n v :
  In v (range_from lo n) <-> lo <= v < lo + Z.of_nat n.
Proof.
  revert lo. induction n as [|n IH]; intros lo; cbn [range_from In].
  - lia.
  - rewrite IH. lia.
Qed.

Lemma range_In lo hi v : In v (range lo hi) <-> lo <= v < hi.
Proof. unfold range. rewrite range_from_In. lia. Qed.

(** The vertical path: one cell per ordinate, in ascending order. *)
Lemma bresenham_line_vertical x0 y0 y1 :
  bresenham_line x0 y0 x0 y1
  = map (fun y => (x0, y)) (range (Z.min y0 y1) (Z.max y0 y1 + 1)).
Proof.
  unfold bresenham_line. rewrite Z.eqb_refl.
  now rewrite vertical_loop_map.
Qed.

(** The general path, after the transposition and the ordering of the
    end points: a walk from [(X0, Y0)] to [(X1, Y1)] with [X0 < X1]
    along the dominant axis, these two being the end points of the
    segment in one order or the other. *)
Lemma bresenham_line_walk x0 y0 x1 y1 :
  x0 <> x1 ->
  exists steep X0 Y0 X1 Y1,
    bresenham_line x0 y0 x1 y1
    = walk steep (X1 - X0) (Z.abs (Y1 - Y0)) (if Y1 >? Y0 then 1 else -1)
        (range X0 (X1 + 1)) 0 Y0
    /\ X0 < X1
    /\ Z.abs (Y1 - Y0) <= X1 - X0
    /\ X1 - X0 = Z.max (Z.abs (x1 - x0)) (Z.abs (y1 - y0))
    /\ ((emit steep X0 Y0 = (x0, y0) /\ emit steep X1 Y1 = (x1, y1))
        \/ (emit steep X0 Y0 = (x1, y1) /\ emit steep X1 Y1 = (x0, y0))).
Proof.
  intros Hne. unfold bresenham_line.
  destruct (x0 =? x1) eqn:E; zbool; [contradiction|]. cbv zeta.
  destruct (Z.abs (y1 - y0) >? Z.abs (x1 - x0)) eqn:Hsteep; zbool.
  - destruct (y0 >? y1) eqn:Hswap; zbool.
    + exists true, y1, x1, y0, x0. rewrite line_loop_walk. cbn [ls_points app].
      repeat split; try lia; [f_equal; lia | right; split; reflexivity].
    + exists true, y0, x0, y1, x1. rewrite line_loop_walk. cbn [ls_points app].
      repeat split; try lia; [f_equal; lia | left; split; reflexivity].
  - destruct (x0 >? x1) eqn:Hswap; zbool.
    + exists false, x1, y1, x0, y0. rewrite line_loop_walk. cbn [ls_points app].
      repeat split; try lia; [f_equal; lia | right; split; reflexivity].
    + exists false, x0, y0, x1, y1. rewrite line_loop_walk. cbn [ls_points app].
      repeat split; try lia; [f_equal; lia | left; split; reflexivity].
Qed.

(** Swapping the two end points changes nothing: the vertical path
    ranges over [min .. max], and the general path orders the end points
    by their coordinate on the dominant axis before walking. *)
Lemma bresenham_line_swap x0 y0 x1 y1 :
  bresenham_line x0 y0 x1 y1 = bresenham_line x1 y1 x0 y0.
Proof.
  unfold bresenham_line.
  destruct (x0 =? x1) eqn:E, (x1 =? x0) eqn:E'; zbool; try lia.
  - subst x1. now rewrite Z.min_comm, Z.max_comm.
  - cbv zeta.
    replace (Z.abs (x0 - x1)) with (Z.abs (x1 - x0)) by lia.
    replace (Z.abs (y0 - y1)) with (Z.abs (y1 - y0)) by lia.
    destruct (Z.abs (y1 - y0) >? Z.abs (x1 - x0)) eqn:Hsteep; zbool.
    + destruct (y0 >? y1) eqn:H0, (y1 >? y0) eqn:H1; zbool;
        try lia; reflexivity.
    + destruct (x0 >? x1) eqn:H0, (x1 >? x0) eqn:H1; zbool;
        try lia; reflexivity.
Qed.

Lemma connected8_nth l :
  connected8 l ->
  forall i p q,
    nth_error l i = Some p -> nth_error l (S i) = Some q -> adjacent8 p q.
Proof.
  induction l as [|a l IH]; intros Hc i p q Hp Hq.
  - destruct i; discriminate.
  - destruct l as [|b l]; [destruct i; discriminate|].
    destruct Hc as [Hab Hc]. destruct i as [|i].
    + cbn in Hp, Hq. congruence.
    + apply (IH Hc i); assumption.
Qed.

Lemma vertical_connected8 x0 n lo :
  connected8 (map (fun y => (x0, y)) (range_from lo n)).
Proof.
  revert lo. induction n as [|n IH]; intros lo; [exact I|].
  cbn [range_from map]. specialize (IH (lo + 1)).
  destruct n as [|n]; [exact I|].
  cbn [range_from map] in IH |- *. split; [|exact IH].
  unfold adjacent8; cbn [fst snd]. lia.
Qed.

Lemma bresenham_line_connected8 x0 y0 x1 y1 :
  connected8 (bresenham_line x0 y0 x1 y1).
Proof.
  destruct (Z.eq_dec x0 x1) as [->|Hne].
  - rewrite bresenham_line_vertical. apply vertical_connected8.
  - destruct (bresenham_line_walk x0 y0 x1 y1 Hne)
      as (steep & X0 & Y0 & X1 & Y1 & -> & _).
    apply walk_connected8. destruct (Y1 >? Y0); lia.
Qed.

Lemma bresenham_line_length x0 y0 x1 y1 :
  Z.of_nat (length (bresenham_line x0 y0 x1 y1))
  = Z.max (Z.abs (x1 - x0)) (Z.abs (y1 - y0)) + 1.
Proof.
  destruct (Z.eq_dec x0 x1) as [->|Hne].
  - rewrite bresenham_line_vertical, length_map, range_length. lia.
  - destruct (bresenham_line_walk x0 y0 x1 y1 Hne)
      as (steep & X0 & Y0 & X1 & Y1 & -> & Hlt & _ & Hmax & _).
    rewrite walk_length, range_length. lia.
Qed.

Lemma bresenham_line_endpoints x0 y0 x1 y1 :
  In (x0, y0) (bresenham_line x0 y0 x1 y1)
  /\ In (x1, y1) (bresenham_line x0 y0 x1 y1).
Proof.
  destruct (Z.eq_dec x0 x1) as [->|Hne].
  - rewrite bresenham_line_vertical.
    split; apply in_map_iff; eexists; (split; [reflexivity|]);
      apply range_In; lia.
  - destruct (bresenham_line_walk x0 y0 x1 y1 Hne)
      as (steep & X0 & Y0 & X1 & Y1 & -> & Hlt & Hdy & _ & Hends).
    set (s := if Y1 >? Y0 then 1 else -1).
    assert (Hs : s * s = 1) by (subst s; destruct (Y1 >? Y0); reflexivity).
    assert (HY : Y1 = Y0 + s * Z.abs (Y1 - Y0)).
    { subst s. destruct (Y1 >? Y0) eqn:E; zbool; lia. }
    unfold range.
    replace (Z.to_nat (X1 + 1 - X0)) with (S (Z.to_nat (X1 - X0))) by lia.
    assert (Hfirst := walk_first steep (X1 - X0) (Z.abs (Y1 - Y0)) s
                        (Z.to_nat (X1 - X0)) X0 0 Y0).
    assert (Hlast := walk_last steep (X1 - X0) (Z.abs (Y1 - Y0)) s
                       X0 Y0 (Z.to_nat (X1 - X0)) X0 0 Y0).
    replace (X0 + (X1 - X0)) with X1 in Hlast by lia.
    rewrite <- HY in Hlast.
    assert (Hlast' : In (emit steep X1 Y1)
              (walk steep (X1 - X0) (Z.abs (Y1 - Y0)) s
                 (range_from X0 (S (Z.to_nat (X1 - X0)))) 0 Y0)).
    { apply Hlast; lia. }
    destruct Hends as [[<- <-]|[<- <-]]; split; assumption.
Qed.

(** ** The stated properties of the line rasterizer *)

(** C3: for all integers [x0 y0 x1 y1], the list returned by
    [bresenham_line] contains both end cells [(x0, y0)] and
    [(x1, y1)]. *)
Theorem line_contains_endpoints (x0 y0 x1 y1 : Z) :
  In (x0, y0) (bresenham_line x0 y0 x1 y1)
  /\ In (x1, y1) (bresenham_line x0 y0 x1 y1).
Proof. apply bresenham_line_endpoints. Qed.

(** C5: for all integers [x0 y0 x1 y1], two consecutive points of the
    list returned by [bresenham_line] (positions [i] and [i + 1]) differ
    by at most 1 in the x coordinate and by at most 1 in the y
    coordinate. *)
Theorem line_consecutive_adjacent (x0 y0 x1 y1 : Z) (i : nat) (p q : point) :
  nth_error (bresenham_line x0 y0 x1 y1) i = Some p ->
  nth_error (bresenham_line x0 y0 x1 y1) (S i) = Some q ->
  Z.abs (fst q - fst p) <= 1 /\ Z.abs (snd q - snd p) <= 1.
Proof.
  intros Hp Hq.
  exact (connected8_nth _ (bresenham_line_connected8 x0 y0 x1 y1) i p q Hp Hq).
Qed.

Lemma line_consecutive_adjacent_witness :
  Z.abs (fst (2, 1) - fst (1, 0)) <= 1 /\ Z.abs (snd (2, 1) - snd (1, 0)) <= 1.
Proof.
  apply (line_consecutive_adjacent 0 0 5 2 1%nat (1, 0) (2, 1)); reflexivity.
Defined.

(** C6: for all integers [x0 y0 x1 y1], [bresenham_line x0 y0 x1 y1] and
    [bresenham_line x1 y1 x0 y0] contain exactly the same points. *)
Theorem line_reversal_same_points (x0 y0 x1 y1 : Z) (p : point) :
  In p (bresenham_line x0 y0 x1 y1) <-> In p (bresenham_line x1 y1 x0 y0).
Proof. now rewrite (bresenham_line_swap x0 y0 x1 y1). Qed.

(** C7: for all integers [a b], [bresenham_line a b a b] is the list of
    exactly one point, [(a, b)]. *)
Theorem line_equal_endpoints (a b : Z) :
  bresenham_line a b a b = [(a, b)].
Proof.
  rewrite bresenham_line_vertical, Z.min_id, Z.max_id. unfold range.
  replace (b + 1 - b) with 1 by lia. reflexivity.
Qed.

(** C8: for all integers [x0 y0 x1 y1], the list returned by
    [bresenham_line] has exactly [max (|x1 - x0|) (|y1 - y0|) + 1]
    elements; in particular the segment from (10, 10) to (80, 50) has
    71 points. *)
Theorem line_length_dominant (x0 y0 x1 y1 : Z) :
  Z.of_nat (length (bresenham_line x0 y0 x1 y1))
  = Z.max (Z.abs (x1 - x0)) (Z.abs (y1 - y0)) + 1
  /\ length (bresenham_line 10 10 80 50) = 71%nat.
Proof. split; [apply bresenham_line_length | reflexivity]. Qed.

(** C9: for all integers [x0 y0 x1 y1], [bresenham_line x0 y0 x1 y1] and
    [bresenham_line x1 y1 x0 y0] are the same list, element for
    element. *)
Theorem line_reversal_same_sequence (x0 y0 x1 y1 : Z) :
  bresenham_line x0 y0 x1 y1 = bresenham_line x1 y1 x0 y0.
Proof. apply bresenham_line_swap. Qed.

(** * Properties of [bresenham_circle] *)

(** ** The three ways through one test of the [while] condition *)

Lemma circle_loop_exit cx cy x y d points :
  y < x -> circle_loop cx cy x y d points = points.
Proof.
  intros H. rewrite circle_loop_equation_1.
  destruct (Z_le_dec x y); [lia | reflexivity].
Qed.

Lemma circle_loop_flat cx cy x y d points :
  x <= y -> d < 0 ->
  circle_loop cx cy x y d points
  = circle_loop cx cy (x + 1) y (d + 4 * x + 6)
      (points ++ add_circle_points cx cy (x + 1) y).
Proof.
  intros Hxy Hd. rewrite circle_loop_equation_1.
  destruct (Z_le_dec x y); [cbn | lia].
  destruct (Z_lt_dec d 0); [reflexivity | lia].
Qed.

Lemma circle_loop_diag cx cy x y d points :
  x <= y -> 0 <= d ->
  circle_loop cx cy x y d points
  = circle_loop cx cy (x + 1) (y - 1) (d + 4 * (x - y) + 10)
      (points ++ add_circle_points cx cy (x + 1) (y - 1)).
Proof.
  intros Hxy Hd. rewrite circle_loop_equation_1.
  destruct (Z_le_dec x y); [cbn | lia].
  destruct (Z_lt_dec d 0); [lia | reflexivity].
Qed.

(** ** Loop invariants *)

Section CircleInvariant.
(** A property [Inv] of the loop variables that both branches of the
    body preserve holds of the final variables, for which the loop
    condition is false. *)
Variables (cx cy : Z) (Inv : Z -> Z -> Z -> list point -> Prop).

Hypothesis Inv_flat : forall x y d points,
  Inv x y d points -> x <= y -> d < 0 ->
  Inv (x + 1) y (d + 4 * x + 6)
      (points ++ add_circle_points cx cy (x + 1) y).

Hypothesis Inv_diag : forall x y d points,
  Inv x y d points -> x <= y -> 0 <= d ->
  Inv (x + 1) (y - 1) (d + 4 * (x - y) + 10)
      (points ++ add_circle_points cx cy (x + 1) (y - 1)).

Lemma circle_loop_invariant x y d points :
  Inv x y d points ->
  exists x' y' d',
    y' < x' /\ Inv x' y' d' (circle_loop cx cy x y d points).
Proof.
  funelim (circle_loop cx cy x y d points); intros HI.
  - exists x, y, d. split; [lia | exact HI].
  - match goal with IH : _ -> exists _, _ |- _ => apply IH end.
    apply Inv_flat; [exact HI | lia | lia].
  - match goal with IH : _ -> exists _, _ |- _ => apply IH end.
    apply Inv_diag; [exact HI | lia | lia].
Qed.
End CircleInvariant.

(** ** Negative radius and radius zero *)

Lemma bresenham_circle_negative cx cy r :
  r < 0 -> bresenham_circle cx cy r = add_circle_points cx cy 0 r.
Proof. intros Hr. unfold bresenham_circle. now apply circle_loop_exit. Qed.

Lemma bresenham_circle_zero cx cy :
  bresenham_circle cx cy 0
  = add_circle_points cx cy 0 0 ++ add_circle_points cx cy 1 (-1).
Proof.
  unfold bresenham_circle. cbv zeta.
  change (3 - 2 * 0) with 3.
  rewrite circle_loop_diag by lia.
  rewrite circle_loop_exit by lia.
  reflexivity.
Qed.

(** ** Symmetry of the emitted blocks *)

Lemma add_circle_points_reflect_v cx cy x y :
  Permutation (map (reflect_v cx) (add_circle_points cx cy x y))
              (add_circle_points cx cy x y).
Proof.
  unfold add_circle_points, reflect_v. cbn [map fst snd].
  replace (2 * cx - (cx + x)) with (cx - x) by ring.
  replace (2 * cx - (cx - x)) with (cx + x) by ring.
  replace (2 * cx - (cx + y)) with (cx - y) by ring.
  replace (2 * cx - (cx - y)) with (cx + y) by ring.
  repeat (etransitivity; [apply perm_swap | do 2 apply perm_skip]).
  reflexivity.
Qed.

Lemma add_circle_points_reflect_h cx cy x y :
  Permutation (map (reflect_h cy) (add_circle_points cx cy x y))
              (add_circle_points cx cy x y).
Proof.
  unfold add_circle_points, reflect_h. cbn [map fst snd].
  replace (2 * cy - (cy + x)) with (cy - x) by ring.
  replace (2 * cy - (cy - x)) with (cy + x) by ring.
  replace (2 * cy - (cy + y)) with (cy - y) by ring.
  replace (2 * cy - (cy - y)) with (cy + y) by ring.
  match goal with
  | |- Permutation [?a; ?b; ?c; ?d; ?e; ?f; ?g; ?h] _ =>
      change (Permutation (([a; b] ++ [c; d]) ++ ([e; f] ++ [g; h]))
                          (([c; d] ++ [a; b]) ++ ([g; h] ++ [e; f])))
  end.
  apply Permutation_app; apply Permutation_app_comm.
Qed.

Lemma symmetric_blocks_init cx cy x y :
  symmetric_blocks cx cy (add_circle_points cx cy x y).
Proof.
  repeat split.
  - apply add_circle_points_reflect_v.
  - apply add_circle_points_reflect_h.
  - exists 1%nat. split; [lia | reflexivity].
Qed.

Lemma symmetric_blocks_app cx cy points x y :
  symmetric_blocks cx cy points ->
  symmetric_blocks cx cy (points ++ add_circle_points cx cy x y).
Proof.
  intros (Hv & Hh & k & Hk & Hlen). repeat split.
  - rewrite map_app. apply Permutation_app;
      [exact Hv | apply add_circle_points_reflect_v].
  - rewrite map_app. apply Permutation_app;
      [exact Hh | apply add_circle_points_reflect_h].
  - exists (S k). split; [lia|].
    rewrite length_app, Hlen. cbn [add_circle_points length]. lia.
Qed.

Lemma bresenham_circle_symmetric cx cy r :
  symmetric_blocks cx cy (bresenham_circle cx cy r).
Proof.
  unfold bresenham_circle. cbv zeta.
  destruct (circle_loop_invariant cx cy
              (fun _ _ _ points => symmetric_blocks cx cy points))
    with (x := 0) (y := r) (d := 3 - 2 * r)
         (points := add_circle_points cx cy 0 r)
    as (x' & y' & d' & _ & H).
  - intros. now apply symmetric_blocks_app.
  - intros. now apply symmetric_blocks_app.
  - apply symmetric_blocks_init.
  - exact H.
Qed.

(** ** Distance of the emitted cells to the center *)

(** The eight cells of a block all lie at squared distance
    [x * x + y * y] from the center. *)
Lemma add_circle_points_sqdist cx cy x y :
  Forall (fun p => sqdist p (cx, cy) = x * x + y * y)
         (add_circle_points cx cy x y).
Proof.
  unfold add_circle_points.
  repeat constructor; unfold sqdist; cbn [fst snd]; ring.
Qed.

(** [round_sqrt n] is the integer nearest to the square root of [n]:
    [k - 1/2 <= sqrt n < k + 1/2], written with squares. *)
Lemma round_sqrt_nearest n :
  0 <= n ->
  let k := round_sqrt n in
  0 <= k
  /\ (2 * k - 1 <= 0 \/ (2 * k - 1) * (2 * k - 1) <= 4 * n)
  /\ 4 * n < (2 * k + 1) * (2 * k + 1).
Proof.
  intros Hn. unfold round_sqrt. cbv zeta.
  pose proof (Z.sqrt_spec (4 * n) ltac:(lia)) as [Hlo Hhi].
  pose proof (Z.sqrt_nonneg (4 * n)) as Hs.
  set (s := Z.sqrt (4 * n)) in *.
  assert (Hdiv : 2 * ((s + 1) / 2) <= s + 1 <= 2 * ((s + 1) / 2) + 1).
  { Z.div_mod_to_equations. lia. }
  set (k := (s + 1) / 2) in *.
  repeat split; [lia | | nia].
  destruct (Z.eq_dec s 0); [left; lia | right; nia].
Qed.

(** A cell whose squared distance lies in [[r*r - r, r*r + r + 2]] has
    rounded distance [r - 1], [r] or [r + 1]. *)
Lemma near_radius_round r D :
  0 <= r -> r * r - r <= D <= r * r + r + 2 ->
  Z.abs (round_sqrt D - r) <= 1.
Proof.
  intros Hr [Hlo Hhi]. unfold round_sqrt.
  assert (HD : 0 <= D) by nia.
  pose proof (Z.sqrt_spec (4 * D) ltac:(lia)) as [Hslo Hshi].
  pose proof (Z.sqrt_nonneg (4 * D)) as Hs.
  set (s := Z.sqrt (4 * D)) in *.
  assert (Hup : s <= 2 * r + 2) by nia.
  assert (Hdn : 2 * r - 3 <= s) by nia.
  Z.div_mod_to_equations. lia.
Qed.

Section CircleDistance.
Variables (cx cy r : Z).
Hypothesis r_nonneg : 0 <= r.

Lemma distance_inv_init : distance_inv cx cy r 0 r (3 - 2 * r)
                            (add_circle_points cx cy 0 r).
Proof.
  unfold distance_inv. repeat split; try lia.
  eapply Forall_impl; [|apply add_circle_points_sqdist].
  cbv beta. intros p Hp. unfold near_radius. rewrite Hp. nia.
Qed.

Lemma distance_inv_flat x y d points :
  distance_inv cx cy r x y d points -> x <= y -> d < 0 ->
  distance_inv cx cy r (x + 1) y (d + 4 * x + 6)
    (points ++ add_circle_points cx cy (x + 1) y).
Proof.
  intros (Hx & Hy & Hd & Hf & Hpts) Hxy Hneg.
  specialize (Hf Hxy).
  unfold distance_inv. repeat split; try nia.
  apply Forall_app. split; [exact Hpts|].
  eapply Forall_impl; [|apply add_circle_points_sqdist].
  cbv beta. intros p Hp. unfold near_radius. rewrite Hp. nia.
Qed.

Lemma distance_inv_diag x y d points :
  distance_inv cx cy r x y d points -> x <= y -> 0 <= d ->
  distance_inv cx cy r (x + 1) (y - 1) (d + 4 * (x - y) + 10)
    (points ++ add_circle_points cx cy (x + 1) (y - 1)).
Proof.
  intros (Hx & Hy & Hd & Hf & Hpts) Hxy Hpos.
  specialize (Hf Hxy).
  unfold distance_inv. repeat split; try nia.
  apply Forall_app. split; [exact Hpts|].
  eapply Forall_impl; [|apply add_circle_points_sqdist].
  cbv beta. intros p Hp. unfold near_radius. rewrite Hp. nia.
Qed.

Lemma bresenham_circle_near_radius :
  Forall (near_radius cx cy r) (bresenham_circle cx cy r).
Proof.
  unfold bresenham_circle. cbv zeta.
  destruct (circle_loop_invariant cx cy (distance_inv cx cy r)
              distance_inv_flat distance_inv_diag
              0 r (3 - 2 * r) (add_circle_points cx cy 0 r)
              distance_inv_init)
    as (x' & y' & d' & _ & H).
  apply H.
Qed.
End CircleDistance.

(** ** The stated properties of the circle rasterizer *)

(** C1, as stated, fails: called with center (0, 0) and radius -1,
    [bresenham_circle] does not raise InvalidArgument, and it produces
    eight points. *)
Lemma circle_negative_radius_not_rejected :
  call_bresenham_circle 0 0 (-1) <> Raised InvalidArgument
  /\ bresenham_circle 0 0 (-1)
     = [(0, -1); (0, -1); (0, 1); (0, 1); (-1, 0); (1, 0); (-1, 0); (1, 0)].
Proof. split; [discriminate | reflexivity]. Qed.

(** C1, amended: for every integer center [(cx, cy)] and every integer
    radius [r < 0], [bresenham_circle] raises nothing and returns
    exactly the eight points of the initial expansion of the offset
    [(0, r)]; the loop body is never run. *)
Theorem circle_negative_radius_returns_initial_block (cx cy r : Z) :
  r < 0 ->
  call_bresenham_circle cx cy r = Returned (add_circle_points cx cy 0 r)
  /\ length (bresenham_circle cx cy r) = 8%nat.
Proof.
  intros Hr. unfold call_bresenham_circle.
  rewrite (bresenham_circle_negative cx cy r Hr).
  split; reflexivity.
Qed.

Lemma circle_negative_radius_returns_initial_block_witness :
  call_bresenham_circle 40 30 (-1)
  = Returned (add_circle_points 40 30 0 (-1))
  /\ length (bresenham_circle 40 30 (-1)) = 8%nat.
Proof.
  apply (circle_negative_radius_returns_initial_block 40 30 (-1)). lia.
Defined.

(** C2, on the code: for every integer center [(cx, cy)],
    [bresenham_circle cx cy 0] returns sixteen points, the center eight
    times followed by the expansion of the offset [(1, -1)], so the
    four diagonal neighbours of the center are in the list, each
    twice. *)
Theorem circle_radius_zero_output (cx cy : Z) :
  bresenham_circle cx cy 0
  = repeat (cx, cy) 8
    ++ [ (cx + 1, cy - 1); (cx - 1, cy - 1);
         (cx + 1, cy + 1); (cx - 1, cy + 1);
         (cx - 1, cy + 1); (cx + 1, cy + 1);
         (cx - 1, cy - 1); (cx + 1, cy - 1) ]
  /\ In (cx + 1, cy - 1) (bresenham_circle cx cy 0)
  /\ (cx + 1, cy - 1) <> (cx, cy).
Proof.
  assert (E : bresenham_circle cx cy 0
    = repeat (cx, cy) 8
      ++ [ (cx + 1, cy - 1); (cx - 1, cy - 1);
           (cx + 1, cy + 1); (cx - 1, cy + 1);
           (cx - 1, cy + 1); (cx + 1, cy + 1);
           (cx - 1, cy - 1); (cx + 1, cy - 1) ]).
  { rewrite bresenham_circle_zero. unfold add_circle_points.
    cbn [repeat app].
    rewrite !Z.add_0_r, !Z.sub_0_r.
    replace (cy + -1) with (cy - 1) by ring.
    replace (cy - -1) with (cy + 1) by ring.
    replace (cx + -1) with (cx - 1) by ring.
    replace (cx - -1) with (cx + 1) by ring.
    reflexivity. }
  split; [exact E|]. split.
  - rewrite E. apply in_or_app. right. now left.
  - intros H. injection H as H1 H2. lia.
Qed.

(** C4: for every integer center [(cx, cy)] and every integer radius
    [r >= 0], every point [p] returned by [bresenham_circle] has a
    Euclidean distance to the center that rounds to an integer within
    1 of [r]; with squares, the distance is at least [r - 3/2] and less
    than [r + 3/2]. *)
Theorem circle_points_rounded_distance (cx cy r : Z) (p : point) :
  0 <= r ->
  In p (bresenham_circle cx cy r) ->
  Z.abs (round_sqrt (sqdist p (cx, cy)) - r) <= 1
  /\ (2 * r - 3 <= 0
      \/ (2 * r - 3) * (2 * r - 3) <= 4 * sqdist p (cx, cy))
  /\ 4 * sqdist p (cx, cy) < (2 * r + 3) * (2 * r + 3).
Proof.
  intros Hr Hin.
  pose proof (bresenham_circle_near_radius cx cy r Hr) as Hall.
  rewrite Forall_forall in Hall. specialize (Hall p Hin).
  split; [apply near_radius_round; assumption|].
  unfold near_radius in Hall.
  split; [|nia].
  destruct (Z_le_gt_dec (2 * r - 3) 0); [left; assumption | right; nia].
Qed.

Lemma circle_points_rounded_distance_witness :
  Z.abs (round_sqrt (sqdist (40, 50) (40, 30)) - 20) <= 1
  /\ (2 * 20 - 3 <= 0
      \/ (2 * 20 - 3) * (2 * 20 - 3) <= 4 * sqdist (40, 50) (40, 30))
  /\ 4 * sqdist (40, 50) (40, 30) < (2 * 20 + 3) * (2 * 20 + 3).
Proof.
  apply (circle_points_rounded_distance 40 30 20 (40, 50)); [lia|].
  vm_compute. left. reflexivity.
Defined.

(** C10: for every integer center [(cx, cy)] and every integer radius
    [r], the list returned by [bresenham_circle], taken as a multiset,
    is unchanged by the reflection [(px, py) -> (2 * cx - px, py)] and
    by the reflection [(px, py) -> (px, 2 * cy - py)], and its length
    is a positive multiple of 8. *)
Theorem circle_reflection_symmetric (cx cy r : Z) :
  Permutation (map (reflect_v cx) (bresenham_circle cx cy r))
              (bresenham_circle cx cy r)
  /\ Permutation (map (reflect_h cy) (bresenham_circle cx cy r))
                 (bresenham_circle cx cy r)
  /\ exists k : nat,
       (0 < k)%nat /\ length (bresenham_circle cx cy r) = (8 * k)%nat.
Proof. exact (bresenham_circle_symmetric cx cy r). Qed.

(** * Further properties of [bresenham_line] *)

(** The general path with its parameters spelled out: [steep] is the
    test of the source, the walk runs along the dominant axis from the
    end point with the smaller coordinate there. *)
Lemma bresenham_line_normal x0 y0 x1 y1 :
  x0 <> x1 ->
  exists X0 Y0 X1 Y1,
    let steep := Z.abs (y1 - y0) >? Z.abs (x1 - x0) in
    bresenham_line x0 y0 x1 y1
    = walk steep (X1 - X0) (Z.abs (Y1 - Y0)) (if Y1 >? Y0 then 1 else -1)
        (range X0 (X1 + 1)) 0 Y0
    /\ X0 < X1
    /\ Z.abs (Y1 - Y0) <= X1 - X0
    /\ ((emit steep X0 Y0 = (x0, y0) /\ emit steep X1 Y1 = (x1, y1))
        \/ (emit steep X0 Y0 = (x1, y1) /\ emit steep X1 Y1 = (x0, y0))).
Proof.
  intros Hne. unfold bresenham_line.
  destruct (x0 =? x1) eqn:E; zbool; [contradiction|]. cbv zeta.
  destruct (Z.abs (y1 - y0) >? Z.abs (x1 - x0)) eqn:Hsteep; zbool.
  - destruct (y0 >? y1) eqn:Hswap; zbool.
    + exists y1, x1, y0, x0. rewrite line_loop_walk. cbn [ls_points app].
      repeat split; try lia; [f_equal; lia | right; split; reflexivity].
    + exists y0, x0, y1, x1. rewrite line_loop_walk. cbn [ls_points app].
      repeat split; try lia; [f_equal; lia | left; split; reflexivity].
  - destruct (x0 >? x1) eqn:Hswap; zbool.
    + exists x1, y1, x0, y0. rewrite line_loop_walk. cbn [ls_points app].
      repeat split; try lia; [f_equal; lia | right; split; reflexivity].
    + exists x0, y0, x1, y1. rewrite line_loop_walk. cbn [ls_points app].
      repeat split; try lia; [f_equal; lia | left; split; reflexivity].
Qed.

Lemma range_from_NoDup lo n : NoDup (range_from lo n).
Proof.
  revert lo. induction n as [|n IH]; intros lo; cbn [range_from].
  - constructor.
  - constructor; [|apply IH]. rewrite range_from_In. lia.
Qed.

Lemma range_from_shift a lo n :
  range_from (lo + a) n = map (fun v => v + a) (range_from lo n).
Proof.
  revert lo. induction n as [|n IH]; intros lo; cbn [range_from map].
  - reflexivity.
  - f_equal. rewrite <- IH. f_equal. ring.
Qed.

Section WalkTrack.
Variables (steep : bool) (dx dy y_step : Z).

(** The coordinate along which the walk advances. *)
Lemma walk_dominant xs error y :
  map (fun p : point => if steep then snd p else fst p)
      (walk steep dx dy y_step xs error y)
  = xs.
Proof.
  revert error y.
  induction xs as [|x xs IH]; intros error y; cbn [walk map].
  - reflexivity.
  - f_equal.
    + unfold emit. now destruct steep.
    + destruct (2 * (error + dy) >=? dx); apply IH.
Qed.

(** Moving the start of the walk moves every cell alike. *)
Lemma walk_shift a b xs error y :
  walk steep dx dy y_step (map (fun v => v + a) xs) error (y + b)
  = map (if steep then translate b a else translate a b)
        (walk steep dx dy y_step xs error y).
Proof.
  revert error y.
  induction xs as [|x xs IH]; intros error y; cbn [walk map].
  - reflexivity.
  - f_equal.
    + unfold emit, translate. now destruct steep.
    + destruct (2 * (error + dy) >=? dx).
      * replace (y + b + y_step) with (y + y_step + b) by ring. apply IH.
      * apply IH.
Qed.

(** Without an extent along the other axis the accumulator stays at
    zero and the ordinate never moves. *)
Lemma walk_level xs y :
  0 < dx -> dy = 0 ->
  walk steep dx dy y_step xs 0 y = map (fun x => emit steep x y) xs.
Proof.
  intros Hdx ->.
  induction xs as [|x xs IH]; cbn [walk map]; [reflexivity|].
  change (0 + 0) with 0. change (2 * 0) with 0.
  destruct (0 >=? dx) eqn:E.
  - apply Z.geb_le in E. lia.
  - now rewrite IH.
Qed.

Variables (x0 y0 : Z).
Hypothesis dx_pos : 0 < dx.
Hypothesis dy_range : 0 <= dy <= dx.
Hypothesis y_step_unit : y_step * y_step = 1.

Lemma walk_on_track n x error y :
  x0 <= x -> x + Z.of_nat n <= x0 + dx + 1 ->
  error = (x - x0) * dy - y_step * (y - y0) * dx ->
  - dx <= 2 * error < dx ->
  Forall (fun p => exists px py,
            p = emit steep px py /\ on_track dx dy y_step x0 y0 px py)
         (walk steep dx dy y_step (range_from x n) error y).
Proof.
  revert x error y.
  induction n as [|n IH]; intros x error y Hlo Hhi He Hb;
    cbn [range_from walk]; constructor.
  - exists x, y. split; [reflexivity|]. unfold on_track. split; lia.
  - destruct (2 * (error + dy) >=? dx) eqn:Hc.
    + apply Z.geb_le in Hc. apply IH; [lia | lia | nia | lia].
    + rewrite Z.geb_leb in Hc. apply Z.leb_gt in Hc.
      apply IH; [lia | lia | nia | lia].
Qed.

(** On the track the ordinate has made between 0 and [dy] steps. *)
Lemma on_track_steps px py :
  on_track dx dy y_step x0 y0 px py -> 0 <= y_step * (py - y0) <= dy.
Proof.
  unfold on_track. intros [[Hlo Hhi] [Hb1 Hb2]].
  set (i := px - x0) in *. set (k := y_step * (py - y0)) in *.
  assert (0 <= i * dy) by nia.
  assert (0 <= (dx - i) * dy) by nia.
  split; nia.
Qed.

Lemma walk_last_eq n x error y d :
  x + Z.of_nat n = x0 + dx ->
  error = (x - x0) * dy - y_step * (y - y0) * dx ->
  - dx <= 2 * error < dx ->
  last (walk steep dx dy y_step (range_from x (S n)) error y) d
  = emit steep (x0 + dx) (y0 + y_step * dy).
Proof.
  revert x error y.
  induction n as [|n IH]; intros x error y Hx He Hb.
  - cbn [range_from walk].
    replace (if 2 * (error + dy) >=? dx then [] else [])
      with (@nil point) by now destruct (2 * (error + dy) >=? dx).
    cbn [last].
    assert (He' : error = dx * (dy - y_step * (y - y0))).
    { subst error. replace (x - x0) with dx by lia. ring. }
    assert (Hk : dy - y_step * (y - y0) = 0) by nia.
    assert (Hy : y - y0 = y_step * dy).
    { replace dy with (y_step * (y - y0)) by lia.
      rewrite Z.mul_assoc, y_step_unit. ring. }
    f_equal; lia.
  - change (range_from x (S (S n))) with (x :: range_from (x + 1) (S n)).
    cbn [walk].
    destruct (2 * (error + dy) >=? dx) eqn:Hc.
    + apply Z.geb_le in Hc.
      rewrite <- (IH (x + 1) (error + dy - dx) (y + y_step));
        [| lia | nia | lia].
      cbn [range_from walk]. reflexivity.
    + rewrite Z.geb_leb in Hc. apply Z.leb_gt in Hc.
      rewrite <- (IH (x + 1) (error + dy) y); [| lia | nia | lia].
      cbn [range_from walk]. reflexivity.
Qed.
End WalkTrack.

(** Every cell of the general path is within the bounding box of the
    end points and within half a cell of the ideal line. *)
Lemma bresenham_line_track x0 y0 x1 y1 :
  Forall (fun p =>
            (Z.min x0 x1 <= fst p <= Z.max x0 x1
             /\ Z.min y0 y1 <= snd p <= Z.max y0 y1)
            /\ 2 * Z.abs (deviation x0 y0 x1 y1 p)
               <= Z.max (Z.abs (x1 - x0)) (Z.abs (y1 - y0)))
         (bresenham_line x0 y0 x1 y1).
Proof.
  destruct (Z.eq_dec x0 x1) as [->|Hne].
  - rewrite bresenham_line_vertical. apply Forall_forall.
    intros p Hp. apply in_map_iff in Hp. destruct Hp as (y & <- & Hy).
    apply range_In in Hy. unfold deviation. cbn [fst snd].
    replace (x1 - x1) with 0 by ring. lia.
  - destruct (bresenham_line_normal x0 y0 x1 y1 Hne)
      as (X0 & Y0 & X1 & Y1 & Heq & Hlt & Hdy & Hends).
    cbv zeta in Heq. rewrite Heq. clear Heq.
    set (s := if Y1 >? Y0 then 1 else -1).
    assert (Hs : s * s = 1) by (subst s; destruct (Y1 >? Y0); reflexivity).
    unfold range.
    eapply Forall_impl;
      [| apply (walk_on_track _ (X1 - X0) (Z.abs (Y1 - Y0)) s X0 Y0);
         lia].
    cbv beta. intros p (px & py & -> & Htrack).
    pose proof (on_track_steps (X1 - X0) (Z.abs (Y1 - Y0)) s X0 Y0
                  ltac:(lia) ltac:(lia) Hs px py Htrack) as Hsteps.
    destruct Htrack as [Hpx Hdev].
    assert (Hbox : Z.min Y0 Y1 <= py <= Z.max Y0 Y1).
    { subst s. destruct (Y1 >? Y0) eqn:E; zbool; lia. }
    assert (Hline : 2 * Z.abs ((X1 - X0) * (py - Y0) - (Y1 - Y0) * (px - X0))
                    <= X1 - X0).
    { subst s. destruct (Y1 >? Y0) eqn:E; zbool.
      - replace (Z.abs (Y1 - Y0)) with (Y1 - Y0) in Hdev by lia. lia.
      - replace (Z.abs (Y1 - Y0)) with (Y0 - Y1) in Hdev by lia. lia. }
    unfold deviation.
    destruct (Z.abs (y1 - y0) >? Z.abs (x1 - x0)) eqn:Hsteep; zbool;
      line_cases Hends; unfold emit; cbn [fst snd]; (split; [lia|]).
    + replace ((Y1 - Y0) * (px - X0) - (X1 - X0) * (py - Y0))
        with (- ((X1 - X0) * (py - Y0) - (Y1 - Y0) * (px - X0))) by ring.
      lia.
    + replace ((Y0 - Y1) * (px - X1) - (X0 - X1) * (py - Y1))
        with ((X1 - X0) * (py - Y0) - (Y1 - Y0) * (px - X0)) by ring.
      lia.
    + lia.
    + replace ((X0 - X1) * (py - Y1) - (Y0 - Y1) * (px - X1))
        with (- ((X1 - X0) * (py - Y0) - (Y1 - Y0) * (px - X0))) by ring.
      lia.
Qed.

(** The coordinates along the dominant axis, for both paths. *)
Lemma bresenham_line_dominant x0 y0 x1 y1 :
  if (x0 =? x1) || (Z.abs (y1 - y0) >? Z.abs (x1 - x0))
  then map snd (bresenham_line x0 y0 x1 y1)
       = range (Z.min y0 y1) (Z.max y0 y1 + 1)
  else map fst (bresenham_line x0 y0 x1 y1)
       = range (Z.min x0 x1) (Z.max x0 x1 + 1).
Proof.
  destruct (x0 =? x1) eqn:E; zbool; cbn [orb].
  - subst x1. rewrite bresenham_line_vertical, map_map. cbn [snd].
    apply map_id.
  - destruct (bresenham_line_normal x0 y0 x1 y1 E)
      as (X0 & Y0 & X1 & Y1 & Heq & Hlt & Hdy & Hends).
    cbv zeta in Heq. rewrite Heq. clear Heq.
    destruct (Z.abs (y1 - y0) >? Z.abs (x1 - x0)) eqn:Hsteep.
    + rewrite (walk_dominant true). line_cases Hends; f_equal; lia.
    + rewrite (walk_dominant false). line_cases Hends; f_equal; lia.
Qed.

Lemma gtb_add_r a b c : (a + c >? b + c) = (a >? b).
Proof.
  rewrite !Z.gtb_ltb.
  destruct (Z.ltb_spec (b + c) (a + c)), (Z.ltb_spec b a); lia || reflexivity.
Qed.

Lemma eqb_add_r a b c : (a + c =? b + c) = (a =? b).
Proof.
  destruct (Z.eqb_spec (a + c) (b + c)), (Z.eqb_spec a b);
    lia || reflexivity.
Qed.

Lemma range_shift a lo hi :
  range (lo + a) (hi + a) = map (fun v => v + a) (range lo hi).
Proof.
  unfold range. replace (hi + a - (lo + a)) with (hi - lo) by ring.
  apply range_from_shift.
Qed.

Lemma bresenham_line_translate a b x0 y0 x1 y1 :
  bresenham_line (x0 + a) (y0 + b) (x1 + a) (y1 + b)
  = map (translate a b) (bresenham_line x0 y0 x1 y1).
Proof.
  unfold bresenham_line. rewrite eqb_add_r.
  destruct (x0 =? x1).
  - rewrite !vertical_loop_map. cbn [app].
    rewrite Z.add_min_distr_r, Z.add_max_distr_r.
    replace (Z.max y0 y1 + b + 1) with (Z.max y0 y1 + 1 + b) by ring.
    rewrite range_shift, !map_map. reflexivity.
  - cbv zeta.
    replace (x1 + a - (x0 + a)) with (x1 - x0) by ring.
    replace (y1 + b - (y0 + b)) with (y1 - y0) by ring.
    destruct (Z.abs (y1 - y0) >? Z.abs (x1 - x0)).
    + rewrite gtb_add_r. destruct (y0 >? y1);
        rewrite gtb_add_r, !line_loop_walk; cbn [ls_points ls_error ls_y app].
      * replace (y0 + b + 1) with (y0 + 1 + b) by ring.
        rewrite range_shift, walk_shift. reflexivity.
      * replace (y1 + b + 1) with (y1 + 1 + b) by ring.
        rewrite range_shift, walk_shift. reflexivity.
    + rewrite gtb_add_r. destruct (x0 >? x1);
        rewrite gtb_add_r, !line_loop_walk; cbn [ls_points ls_error ls_y app].
      * replace (x0 + a + 1) with (x0 + 1 + a) by ring.
        rewrite range_shift, walk_shift. reflexivity.
      * replace (x1 + a + 1) with (x1 + 1 + a) by ring.
        rewrite range_shift, walk_shift. reflexivity.
Qed.

Lemma vertical_last (x0 lo : Z) (n : nat) (d : point) :
  last (map (fun y => (x0, y)) (range_from lo (S n))) d
  = (x0, lo + Z.of_nat n).
Proof.
  revert lo. induction n as [|n IH]; intros lo.
  - cbn. f_equal. lia.
  - change (range_from lo (S (S n))) with (lo :: range_from (lo + 1) (S n)).
    cbn [map].
    transitivity (last (map (fun y => (x0, y)) (range_from (lo + 1) (S n))) d).
    { cbn [range_from map]. reflexivity. }
    rewrite IH. f_equal. lia.
Qed.

Lemma bresenham_line_first_last x0 y0 x1 y1 :
  let swapped :=
    if (x0 =? x1) || (Z.abs (y1 - y0) >? Z.abs (x1 - x0))
    then y1 <? y0 else x1 <? x0 in
  hd_error (bresenham_line x0 y0 x1 y1)
  = Some (if swapped then (x1, y1) else (x0, y0))
  /\ last (bresenham_line x0 y0 x1 y1) (x0, y0)
     = (if swapped then (x0, y0) else (x1, y1)).
Proof.
  cbv zeta. destruct (x0 =? x1) eqn:E; zbool; cbn [orb].
  - subst x1. rewrite bresenham_line_vertical. unfold range.
    replace (Z.to_nat (Z.max y0 y1 + 1 - Z.min y0 y1))
      with (S (Z.to_nat (Z.max y0 y1 - Z.min y0 y1))) by lia.
    rewrite vertical_last. cbn [range_from map hd_error].
    destruct (Z.ltb_spec y1 y0); split; repeat f_equal; lia.
  - destruct (bresenham_line_normal x0 y0 x1 y1 E)
      as (X0 & Y0 & X1 & Y1 & Heq & Hlt & Hdy & Hends).
    cbv zeta in Heq. rewrite Heq. clear Heq.
    set (s := if Y1 >? Y0 then 1 else -1).
    assert (Hs : s * s = 1) by (subst s; destruct (Y1 >? Y0); reflexivity).
    assert (HY : Y0 + s * Z.abs (Y1 - Y0) = Y1).
    { subst s. destruct (Y1 >? Y0) eqn:EY; zbool; lia. }
    unfold range.
    replace (Z.to_nat (X1 + 1 - X0)) with (S (Z.to_nat (X1 - X0))) by lia.
    rewrite (walk_last_eq _ (X1 - X0) (Z.abs (Y1 - Y0)) s X0 Y0)
      by (lia || assumption).
    replace (X0 + (X1 - X0)) with X1 by ring. rewrite HY.
    cbn [range_from walk hd_error].
    destruct (Z.abs (y1 - y0) >? Z.abs (x1 - x0));
      line_cases Hends; unfold emit.
    + destruct (Z.ltb_spec X1 X0); [lia | split; reflexivity].
    + destruct (Z.ltb_spec X0 X1); [split; reflexivity | lia].
    + destruct (Z.ltb_spec X1 X0); [lia | split; reflexivity].
    + destruct (Z.ltb_spec X0 X1); [split; reflexivity | lia].
Qed.

Lemma bresenham_line_level x0 x1 y :
  bresenham_line x0 y x1 y
  = map (fun x => (x, y)) (range (Z.min x0 x1) (Z.max x0 x1 + 1)).
Proof.
  destruct (Z.eq_dec x0 x1) as [->|Hne].
  - rewrite bresenham_line_vertical, !Z.min_id, !Z.max_id. unfold range.
    replace (y + 1 - y) with 1 by ring. replace (x1 + 1 - x1) with 1 by ring.
    reflexivity.
  - destruct (bresenham_line_normal x0 y x1 y Hne)
      as (X0 & Y0 & X1 & Y1 & Heq & Hlt & Hdy & Hends).
    cbv zeta in Heq. rewrite Heq. clear Heq.
    replace (Z.abs (y - y) >? Z.abs (x1 - x0)) with false in *
      by (symmetry; rewrite Z.gtb_ltb; apply Z.ltb_ge; lia).
    line_cases Hends; rewrite Z.sub_diag; cbn [Z.abs];
      (rewrite walk_level by lia); unfold emit;
      (replace (Z.min _ _) with X0 by lia);
      (replace (Z.max _ _) with X1 by lia); reflexivity.
Qed.

(** ** Further stated properties of the line rasterizer *)

(** X1: the line has exactly one cell for each coordinate along its
    dominant axis, in ascending order: when the segment is vertical or
    steep the y coordinates of the list are [min y0 y1 .. max y0 y1],
    otherwise its x coordinates are [min x0 x1 .. max x0 x1]. *)
Theorem line_dominant_axis_coordinates (x0 y0 x1 y1 : Z) :
  if (x0 =? x1) || (Z.abs (y1 - y0) >? Z.abs (x1 - x0))
  then map snd (bresenham_line x0 y0 x1 y1)
       = range (Z.min y0 y1) (Z.max y0 y1 + 1)
  else map fst (bresenham_line x0 y0 x1 y1)
       = range (Z.min x0 x1) (Z.max x0 x1 + 1).
Proof. apply bresenham_line_dominant. Qed.

(** X2: no cell occurs twice in the list returned by
    [bresenham_line]. *)
Theorem line_no_duplicates (x0 y0 x1 y1 : Z) :
  NoDup (bresenham_line x0 y0 x1 y1).
Proof.
  pose proof (bresenham_line_dominant x0 y0 x1 y1) as H.
  destruct ((x0 =? x1) || (Z.abs (y1 - y0) >? Z.abs (x1 - x0))).
  - apply (NoDup_map_inv snd). rewrite H. apply range_from_NoDup.
  - apply (NoDup_map_inv fst). rewrite H. apply range_from_NoDup.
Qed.

(** X3: every cell returned by [bresenham_line] lies in the bounding
    box of the two end points. *)
Theorem line_bounding_box (x0 y0 x1 y1 : Z) (p : point) :
  In p (bresenham_line x0 y0 x1 y1) ->
  Z.min x0 x1 <= fst p <= Z.max x0 x1
  /\ Z.min y0 y1 <= snd p <= Z.max y0 y1.
Proof.
  intros Hin.
  pose proof (bresenham_line_track x0 y0 x1 y1) as Hall.
  rewrite Forall_forall in Hall. exact (proj1 (Hall p Hin)).
Qed.

Lemma line_bounding_box_witness :
  Z.min 5 0 <= fst (2, 1) <= Z.max 5 0
  /\ Z.min 2 0 <= snd (2, 1) <= Z.max 2 0.
Proof.
  apply (line_bounding_box 5 2 0 0 (2, 1)).
  vm_compute. right. right. left. reflexivity.
Defined.

(** X4: every cell [p] returned by [bresenham_line] is within half a
    cell of the ideal line, measured along the minor axis: twice the
    absolute cross product of the segment with [p - (x0, y0)] is at
    most the extent along the dominant axis. *)
Theorem line_half_cell_deviation (x0 y0 x1 y1 : Z) (p : point) :
  In p (bresenham_line x0 y0 x1 y1) ->
  2 * Z.abs (deviation x0 y0 x1 y1 p)
  <= Z.max (Z.abs (x1 - x0)) (Z.abs (y1 - y0)).
Proof.
  intros Hin.
  pose proof (bresenham_line_track x0 y0 x1 y1) as Hall.
  rewrite Forall_forall in Hall. exact (proj2 (Hall p Hin)).
Qed.

Lemma line_half_cell_deviation_witness :
  2 * Z.abs (deviation 0 0 5 2 (2, 1))
  <= Z.max (Z.abs (5 - 0)) (Z.abs (2 - 0)).
Proof.
  apply (line_half_cell_deviation 0 0 5 2 (2, 1)).
  vm_compute. right. right. left. reflexivity.
Defined.

(** X5: moving both end points by [(a, b)] moves every cell of the
    list by [(a, b)] and changes nothing else. *)
Theorem line_translation_invariant (a b x0 y0 x1 y1 : Z) :
  bresenham_line (x0 + a) (y0 + b) (x1 + a) (y1 + b)
  = map (translate a b) (bresenham_line x0 y0 x1 y1).
Proof. apply bresenham_line_translate. Qed.

(** X6: a horizontal segment is rasterized exactly: the cells
    [(x, y)] for [x] from [min x0 x1] to [max x0 x1]. *)
Theorem line_horizontal_exact (x0 x1 y : Z) :
  bresenham_line x0 y x1 y
  = map (fun x => (x, y)) (range (Z.min x0 x1) (Z.max x0 x1 + 1)).
Proof. apply bresenham_line_level. Qed.

(** X7: when the segment is vertical, horizontal or diagonal, every
    cell returned by [bresenham_line] lies exactly on the ideal
    line. *)
Theorem line_lattice_slopes_exact (x0 y0 x1 y1 : Z) (p : point) :
  x0 = x1 \/ y0 = y1 \/ Z.abs (x1 - x0) = Z.abs (y1 - y0) ->
  In p (bresenham_line x0 y0 x1 y1) ->
  deviation x0 y0 x1 y1 p = 0.
Proof.
  intros Hslope Hin.
  pose proof (bresenham_line_track x0 y0 x1 y1) as Hall.
  rewrite Forall_forall in Hall.
  destruct (Hall p Hin) as [[Hbx Hby] Hdev].
  unfold deviation in *.
  destruct Hslope as [-> | [-> | Hdiag]].
  - replace (fst p) with x1 by lia. ring.
  - replace (snd p) with y1 by lia. ring.
  - set (u := snd p - y0) in *. set (v := fst p - x0) in *.
    assert (Hcases : y1 - y0 = x1 - x0 \/ y1 - y0 = - (x1 - x0)) by lia.
    destruct Hcases as [E | E]; rewrite E in *.
    + replace ((x1 - x0) * u - (x1 - x0) * v)
        with ((x1 - x0) * (u - v)) in * by ring.
      assert (u - v = 0) by nia. nia.
    + replace ((x1 - x0) * u - - (x1 - x0) * v)
        with ((x1 - x0) * (u + v)) in * by ring.
      assert (u + v = 0) by nia. nia.
Qed.

Lemma line_lattice_slopes_exact_witness :
  deviation 0 0 3 (-3) (2, -2) = 0.
Proof.
  apply (line_lattice_slopes_exact 0 0 3 (-3) (2, -2)).
  - right. right. reflexivity.
  - vm_compute. right. right. left. reflexivity.
Defined.

(** X8: the list returned by [bresenham_line] begins at the end point
    with the smaller coordinate along the dominant axis and ends at the
    other end point. *)
Theorem line_first_and_last (x0 y0 x1 y1 : Z) :
  let swapped :=
    if (x0 =? x1) || (Z.abs (y1 - y0) >? Z.abs (x1 - x0))
    then y1 <? y0 else x1 <? x0 in
  hd_error (bresenham_line x0 y0 x1 y1)
  = Some (if swapped then (x1, y1) else (x0, y0))
  /\ last (bresenham_line x0 y0 x1 y1) (x0, y0)
     = (if swapped then (x0, y0) else (x1, y1)).
Proof. apply bresenham_line_first_last. Qed.

(** * Further properties of [bresenham_circle] *)

(** ** Translation *)

Lemma add_circle_points_translate a b cx cy x y :
  add_circle_points (cx + a) (cy + b) x y
  = map (translate a b) (add_circle_points cx cy x y).
Proof.
  unfold add_circle_points, translate. cbn [map fst snd].
  repeat (apply f_equal2; [apply f_equal2; ring|]). reflexivity.
Qed.

Lemma circle_loop_translate a b cx cy x y d points :
  circle_loop (cx + a) (cy + b) x y d (map (translate a b) points)
  = map (translate a b) (circle_loop cx cy x y d points).
Proof.
  funelim (circle_loop cx cy x y d points).
  - rewrite circle_loop_exit by lia. reflexivity.
  - rewrite circle_loop_flat by lia.
    rewrite add_circle_points_translate, <- map_app.
    match goal with IH : forall _ _, _ = _ |- _ => apply IH end.
  - rewrite circle_loop_diag by lia.
    rewrite add_circle_points_translate, <- map_app.
    match goal with IH : forall _ _, _ = _ |- _ => apply IH end.
Qed.

Lemma bresenham_circle_translate a b cx cy r :
  bresenham_circle (cx + a) (cy + b) r
  = map (translate a b) (bresenham_circle cx cy r).
Proof.
  unfold bresenham_circle. cbv zeta.
  rewrite add_circle_points_translate. apply circle_loop_translate.
Qed.

(** ** The output as a sequence of blocks *)

Lemma blocks_app cx cy offs offs' :
  blocks cx cy (offs ++ offs') = blocks cx cy offs ++ blocks cx cy offs'.
Proof. unfold blocks. apply flat_map_app. Qed.

Lemma blocks_single cx cy o :
  blocks cx cy [o] = add_circle_points cx cy (fst o) (snd o).
Proof. unfold blocks. cbn [flat_map]. apply app_nil_r. Qed.

Lemma arc_chain_snoc offs o o' :
  arc_chain (offs ++ [o]) -> arc_step o o' ->
  arc_chain ((offs ++ [o]) ++ [o']).
Proof.
  intros Hc Hs. induction offs as [|a offs IH].
  - cbn [app arc_chain]. split; [exact Hs | exact I].
  - destruct offs as [|b offs]; cbn [app arc_chain] in Hc |- *;
      destruct Hc as [Hab Hc].
    + split; [exact Hab|]. split; [exact Hs | exact I].
    + split; [exact Hab | apply IH; exact Hc].
Qed.

(** The list returned is the initial block for the offset [(0, r)]
    followed by one block per iteration, and from one block to the
    next the offset makes one step of the loop. *)
Lemma bresenham_circle_blocks cx cy r :
  exists offs,
    bresenham_circle cx cy r = blocks cx cy ((0, r) :: offs)
    /\ arc_chain ((0, r) :: offs).
Proof.
  unfold bresenham_circle. cbv zeta.
  destruct (circle_loop_invariant cx cy
              (fun x y _ points =>
                 exists offs,
                   points = blocks cx cy (offs ++ [(x, y)])
                   /\ arc_chain (offs ++ [(x, y)])
                   /\ hd_error (offs ++ [(x, y)]) = Some (0, r)))
    with (x := 0) (y := r) (d := 3 - 2 * r)
         (points := add_circle_points cx cy 0 r)
    as (x' & y' & d' & _ & offs & Hpts & Hc & Hhd).
  - intros x y d points (offs & -> & Hc & Hhd) Hxy Hd.
    exists (offs ++ [(x, y)]). repeat split.
    + rewrite (blocks_app cx cy _ [(x + 1, y)]), blocks_single.
      reflexivity.
    + apply arc_chain_snoc; [exact Hc|]. unfold arc_step. cbn [fst snd]. lia.
    + destruct offs; exact Hhd.
  - intros x y d points (offs & -> & Hc & Hhd) Hxy Hd.
    exists (offs ++ [(x, y)]). repeat split.
    + rewrite (blocks_app cx cy _ [(x + 1, y - 1)]), blocks_single.
      reflexivity.
    + apply arc_chain_snoc; [exact Hc|]. unfold arc_step. cbn [fst snd]. lia.
    + destruct offs; exact Hhd.
  - exists []. repeat split.
  - rewrite Hpts.
    destruct (offs ++ [(x', y')]) as [|o tl]; [discriminate|].
    injection Hhd as ->. exists tl. split; [reflexivity | exact Hc].
Qed.

Lemma blocks_nth_error cx cy offs i j :
  (j < 8)%nat ->
  nth_error (blocks cx cy offs) (8 * i + j)
  = match nth_error offs i with
    | Some o => nth_error (add_circle_points cx cy (fst o) (snd o)) j
    | None => None
    end.
Proof.
  intros Hj. revert i. induction offs as [|o offs IH]; intros i.
  - unfold blocks. cbn [flat_map]. rewrite !nth_error_nil. reflexivity.
  - change (blocks cx cy (o :: offs))
      with (add_circle_points cx cy (fst o) (snd o) ++ blocks cx cy offs).
    destruct i as [|i].
    + cbn [nth_error]. rewrite Nat.mul_0_r, Nat.add_0_l.
      apply nth_error_app1. cbn. exact Hj.
    + rewrite nth_error_app2 by (cbn; lia).
      replace (8 * S i + j
               - length (add_circle_points cx cy (fst o) (snd o)))%nat
        with (8 * i + j)%nat by (cbn [add_circle_points length]; lia).
      cbn [nth_error]. apply IH.
Qed.

Lemma arc_chain_nth offs :
  arc_chain offs ->
  forall i o o',
    nth_error offs i = Some o -> nth_error offs (S i) = Some o' ->
    arc_step o o'.
Proof.
  induction offs as [|a offs IH]; intros Hc i o o' Ho Ho'.
  - destruct i; discriminate.
  - destruct offs as [|b offs]; [destruct i; discriminate|].
    destruct Hc as [Hab Hc]. destruct i as [|i].
    + cbn in Ho, Ho'. congruence.
    + apply (IH Hc i); assumption.
Qed.

Lemma add_circle_points_step cx cy o o' j p q :
  arc_step o o' ->
  nth_error (add_circle_points cx cy (fst o) (snd o)) j = Some p ->
  nth_error (add_circle_points cx cy (fst o') (snd o')) j = Some q ->
  adjacent8 p q.
Proof.
  unfold arc_step, add_circle_points. intros [Hx Hy] Hp Hq.
  do 8 (destruct j as [|j];
        [cbn in Hp, Hq; injection Hp as <-; injection Hq as <-;
         unfold adjacent8; cbn [fst snd]; lia|]).
  cbn in Hp. destruct j; discriminate.
Qed.

(** ** Diagonal symmetry *)

Lemma add_circle_points_reflect_d cx cy x y :
  Permutation (map (reflect_d cx cy) (add_circle_points cx cy x y))
              (add_circle_points cx cy x y).
Proof.
  unfold add_circle_points, reflect_d. cbn [map fst snd].
  replace (cx + (cy + y - cy)) with (cx + y) by ring.
  replace (cx + (cy - y - cy)) with (cx - y) by ring.
  replace (cx + (cy + x - cy)) with (cx + x) by ring.
  replace (cx + (cy - x - cy)) with (cx - x) by ring.
  replace (cy + (cx + x - cx)) with (cy + x) by ring.
  replace (cy + (cx - x - cx)) with (cy - x) by ring.
  replace (cy + (cx + y - cx)) with (cy + y) by ring.
  replace (cy + (cx - y - cx)) with (cy - y) by ring.
  match goal with
  | |- Permutation [?a; ?b; ?c; ?d; ?e; ?f; ?g; ?h] _ =>
      transitivity ([e; f; g; h] ++ [a; b; c; d]);
        [apply (Permutation_app_comm [a; b; c; d] [e; f; g; h])|]
  end.
  cbn [app]. apply perm_skip.
  etransitivity; [apply perm_swap|]. do 4 apply perm_skip.
  apply perm_swap.
Qed.

Lemma bresenham_circle_reflect_d cx cy r :
  Permutation (map (reflect_d cx cy) (bresenham_circle cx cy r))
              (bresenham_circle cx cy r).
Proof.
  unfold bresenham_circle. cbv zeta.
  destruct (circle_loop_invariant cx cy
              (fun _ _ _ points =>
                 Permutation (map (reflect_d cx cy) points) points))
    with (x := 0) (y := r) (d := 3 - 2 * r)
         (points := add_circle_points cx cy 0 r)
    as (x' & y' & d' & _ & H).
  - intros x y d points Hp _ _. rewrite map_app.
    apply Permutation_app; [exact Hp | apply add_circle_points_reflect_d].
  - intros x y d points Hp _ _. rewrite map_app.
    apply Permutation_app; [exact Hp | apply add_circle_points_reflect_d].
  - apply add_circle_points_reflect_d.
  - exact H.
Qed.

(** ** Size of the output *)

Lemma bresenham_circle_size cx cy r :
  0 <= r ->
  exists n,
    Z.of_nat (length (bresenham_circle cx cy r)) = 8 * n
    /\ 2 <= n <= r + 2
    /\ 2 * (n - 2) * (n - 2) <= r * r + r.
Proof.
  intros Hr. unfold bresenham_circle. cbv zeta.
  destruct (circle_loop_invariant cx cy
              (fun x y d points =>
                 distance_inv cx cy r x y d points
                 /\ Z.of_nat (length points) = 8 * (x + 1)
                 /\ ((x = 0 /\ y = r)
                     \/ (1 <= x <= r + 1
                         /\ 2 * (x - 1) * (x - 1) <= r * r + r))))
    with (x := 0) (y := r) (d := 3 - 2 * r)
         (points := add_circle_points cx cy 0 r)
    as (x' & y' & d' & Hexit & Hinv & Hlen & Hx).
  - intros x y d points (Hinv & Hlen & Hx) Hxy Hd. split; [|split].
    + now apply distance_inv_flat.
    + rewrite length_app. cbn [add_circle_points length]. lia.
    + right. destruct Hinv as (H0 & Hy & _ & Hf & _).
      specialize (Hf Hxy). split; [lia | nia].
  - intros x y d points (Hinv & Hlen & Hx) Hxy Hd. split; [|split].
    + now apply distance_inv_diag.
    + rewrite length_app. cbn [add_circle_points length]. lia.
    + right. destruct Hinv as (H0 & Hy & _ & Hf & _).
      specialize (Hf Hxy). split; [lia | nia].
  - split; [now apply distance_inv_init|]. split; [reflexivity|].
    left. split; reflexivity.
  - exists (x' + 1). split; [exact Hlen|].
    destruct Hx as [[-> ->] | [Hx1 Hx2]]; [lia|].
    split; [lia|]. replace (x' + 1 - 2) with (x' - 1) by ring. exact Hx2.
Qed.

(** ** Radius one *)

Lemma bresenham_circle_one cx cy :
  bresenham_circle cx cy 1
  = add_circle_points cx cy 0 1 ++ add_circle_points cx cy 1 0.
Proof.
  unfold bresenham_circle. cbv zeta.
  change (3 - 2 * 1) with 1.
  rewrite circle_loop_diag by lia.
  rewrite circle_loop_exit by lia.
  reflexivity.
Qed.

(** ** Further stated properties of the circle rasterizer *)

(** X9: moving the center by [(a, b)] moves every point of the list by
    [(a, b)] and changes nothing else, for every radius. *)
Theorem circle_translation_invariant (a b cx cy r : Z) :
  bresenham_circle (cx + a) (cy + b) r
  = map (translate a b) (bresenham_circle cx cy r).
Proof. apply bresenham_circle_translate. Qed.

(** X10: for every center and every radius, the list returned by
    [bresenham_circle], taken as a multiset, is unchanged by the
    reflection about the diagonal through the center, which exchanges
    the two offsets of a point to the center. *)
Theorem circle_diagonal_symmetric (cx cy r : Z) :
  Permutation (map (reflect_d cx cy) (bresenham_circle cx cy r))
              (bresenham_circle cx cy r).
Proof. apply bresenham_circle_reflect_d. Qed.

(** X11: for every center and every radius [r], negative ones
    included, the list begins with the block of the offset [(0, r)],
    so the four points at distance [|r|] from the center along the
    axes are in it. *)
Theorem circle_contains_axis_points (cx cy r : Z) :
  firstn 8 (bresenham_circle cx cy r) = add_circle_points cx cy 0 r
  /\ In (cx + r, cy) (bresenham_circle cx cy r)
  /\ In (cx - r, cy) (bresenham_circle cx cy r)
  /\ In (cx, cy + r) (bresenham_circle cx cy r)
  /\ In (cx, cy - r) (bresenham_circle cx cy r).
Proof.
  destruct (bresenham_circle_blocks cx cy r) as (offs & -> & _).
  change (blocks cx cy ((0, r) :: offs))
    with (add_circle_points cx cy 0 r ++ blocks cx cy offs).
  split; [reflexivity|].
  unfold add_circle_points.
  rewrite !Z.add_0_r, !Z.sub_0_r.
  repeat split; apply in_or_app; left; cbn [In]; tauto.
Qed.

(** X12: for a radius [r >= 0] the list has [8 * n] points, where the
    number [n] of blocks is at least 2, at most [r + 2], and satisfies
    [2 * (n - 2)^2 <= r^2 + r]: the output grows linearly with the
    radius. *)
Theorem circle_output_size (cx cy r : Z) :
  0 <= r ->
  exists n,
    Z.of_nat (length (bresenham_circle cx cy r)) = 8 * n
    /\ 2 <= n <= r + 2
    /\ 2 * (n - 2) * (n - 2) <= r * r + r.
Proof. apply bresenham_circle_size. Qed.

Lemma circle_output_size_witness :
  exists n,
    Z.of_nat (length (bresenham_circle 40 30 20)) = 8 * n
    /\ 2 <= n <= 20 + 2
    /\ 2 * (n - 2) * (n - 2) <= 20 * 20 + 20.
Proof. apply (circle_output_size 40 30 20). lia. Defined.

(** X13: for a radius [r >= 1] every point of the list lies in the
    square of side [2 * r] about the center; for [r = 0] it lies within
    one cell of the center. *)
Theorem circle_bounding_box (cx cy r : Z) (p : point) :
  0 <= r ->
  In p (bresenham_circle cx cy r) ->
  Z.abs (fst p - cx) <= Z.max r 1 /\ Z.abs (snd p - cy) <= Z.max r 1.
Proof.
  intros Hr Hin.
  destruct (Z_le_gt_dec r 1) as [Hsmall | Hbig].
  - assert (Hr01 : r = 0 \/ r = 1) by lia.
    destruct Hr01 as [-> | ->].
    + rewrite bresenham_circle_zero in Hin. unfold add_circle_points in Hin.
      cbn [app In] in Hin.
      repeat (destruct Hin as [<- | Hin]; [cbn [fst snd]; lia|]).
      contradiction.
    + rewrite bresenham_circle_one in Hin. unfold add_circle_points in Hin.
      cbn [app In] in Hin.
      repeat (destruct Hin as [<- | Hin]; [cbn [fst snd]; lia|]).
      contradiction.
  - pose proof (bresenham_circle_near_radius cx cy r Hr) as Hall.
    rewrite Forall_forall in Hall. specialize (Hall p Hin).
    unfold near_radius, sqdist in Hall. cbn [fst snd] in Hall.
    set (u := fst p - cx) in *. set (v := snd p - cy) in *.
    pose proof (Z.abs_square u) as Hu. pose proof (Z.abs_square v) as Hv.
    pose proof (Z.abs_nonneg u) as Hu0. pose proof (Z.abs_nonneg v) as Hv0.
    rewrite Z.max_l by lia.
    split.
    + destruct (Z_le_gt_dec (Z.abs u) r) as [Hle | Hgt]; [exact Hle|].
      exfalso. assert ((r + 1) * (r + 1) <= Z.abs u * Z.abs u) by nia. nia.
    + destruct (Z_le_gt_dec (Z.abs v) r) as [Hle | Hgt]; [exact Hle|].
      exfalso. assert ((r + 1) * (r + 1) <= Z.abs v * Z.abs v) by nia. nia.
Qed.

Lemma circle_bounding_box_witness :
  Z.abs (fst (40, 50) - 40) <= Z.max 20 1
  /\ Z.abs (snd (40, 50) - 30) <= Z.max 20 1.
Proof.
  apply (circle_bounding_box 40 30 20 (40, 50)); [lia|].
  vm_compute. left. reflexivity.
Defined.

(** X14: for a radius [r >= 0] the center itself is in the list
    exactly when [r = 0]: for [r >= 1] only an outline is produced. *)
Theorem circle_center_only_for_zero_radius (cx cy r : Z) :
  0 <= r ->
  (In (cx, cy) (bresenham_circle cx cy r) <-> r = 0).
Proof.
  intros Hr. split.
  - intros Hin.
    pose proof (bresenham_circle_near_radius cx cy r Hr) as Hall.
    rewrite Forall_forall in Hall. specialize (Hall _ Hin).
    unfold near_radius, sqdist in Hall. cbn [fst snd] in Hall.
    assert (Hr01 : r = 0 \/ r = 1) by nia.
    destruct Hr01 as [-> | ->]; [reflexivity|].
    rewrite bresenham_circle_one in Hin. unfold add_circle_points in Hin.
    cbn [app In] in Hin.
    repeat (destruct Hin as [E | Hin]; [injection E; lia|]).
    contradiction.
  - intros ->. rewrite bresenham_circle_zero. apply in_or_app. left.
    unfold add_circle_points. rewrite !Z.add_0_r. now left.
Qed.

Lemma circle_center_only_for_zero_radius_witness :
  In (40, 30) (bresenham_circle 40 30 0) <-> 0 = 0.
Proof. apply (circle_center_only_for_zero_radius 40 30 0). lia. Defined.

(** X15: each of the eight arcs of the circle is 8-connected: for every
    center and radius, the [j]-th point of a block and the [j]-th point
    of the next block (positions [8 * i + j] and [8 * (i + 1) + j] of
    the list, [j < 8]) differ by at most 1 in each coordinate. *)
Theorem circle_arcs_connected (cx cy r : Z) (i j : nat) (p q : point) :
  (j < 8)%nat ->
  nth_error (bresenham_circle cx cy r) (8 * i + j) = Some p ->
  nth_error (bresenham_circle cx cy r) (8 * (i + 1) + j) = Some q ->
  Z.abs (fst q - fst p) <= 1 /\ Z.abs (snd q - snd p) <= 1.
Proof.
  intros Hj Hp Hq.
  destruct (bresenham_circle_blocks cx cy r) as (offs & E & Hc).
  rewrite E in Hp, Hq.
  rewrite blocks_nth_error in Hp, Hq by exact Hj.
  replace (i + 1)%nat with (S i) in Hq by lia.
  revert Hq. revert Hp.
  match goal with
  | |- match ?t with _ => _ end = _ -> _ => destruct t as [o|] eqn:Ho
  end; [intros Hp | intros; discriminate].
  match goal with
  | |- match ?t with _ => _ end = _ -> _ => destruct t as [o'|] eqn:Ho'
  end; [intros Hq | intros; discriminate].
  exact (add_circle_points_step cx cy o o' j p q
           (arc_chain_nth _ Hc i o o' Ho Ho') Hp Hq).
Qed.

Lemma circle_arcs_connected_witness :
  Z.abs (fst (41, 50) - fst (40, 50)) <= 1
  /\ Z.abs (snd (41, 50) - snd (40, 50)) <= 1.
Proof.
  apply (circle_arcs_connected 40 30 20 0 0 (40, 50) (41, 50));
    [lia | reflexivity | reflexivity].
Defined.

(** * The line as a rounded ideal line *)

Lemma map_determined {A B : Type} (f : A -> B) (g : B -> A) (l : list A) :
  Forall (fun a => a = g (f a)) l -> l = map g (map f l).
Proof.
  induction 1 as [|a l Ha _ IH]; cbn [map]; [reflexivity|].
  now rewrite <- Ha, <- IH.
Qed.

Section WalkClosedForm.
Variables (steep : bool) (dx dy y_step x0 y0 : Z).
Hypothesis dx_pos : 0 < dx.
Hypothesis dy_range : 0 <= dy <= dx.
Hypothesis y_step_unit : y_step * y_step = 1.

(** The ordinate the walk reaches at abscissa [x]: the number of steps
    made is [(x - x0) * dy / dx] rounded to the nearest integer, a tie
    being rounded up. *)
Lemma on_track_ordinate px py :
  on_track dx dy y_step x0 y0 px py ->
  py = y0 + y_step * ((2 * (px - x0) * dy + dx) / (2 * dx)).
Proof.
  unfold on_track. intros [_ [Hlo Hhi]].
  set (k := y_step * (py - y0)) in *.
  assert (Hk : k = (2 * (px - x0) * dy + dx) / (2 * dx)).
  { apply (Z.div_unique _ _ k (2 * ((px - x0) * dy - k * dx) + dx));
      [left; lia | ring]. }
  rewrite <- Hk. subst k.
  rewrite Z.mul_assoc, y_step_unit. ring.
Qed.

Lemma walk_closed_form n :
  Z.of_nat n <= dx + 1 ->
  walk steep dx dy y_step (range_from x0 n) 0 y0
  = map (fun x =>
           emit steep x
             (y0 + y_step * ((2 * (x - x0) * dy + dx) / (2 * dx))))
        (range_from x0 n).
Proof.
  intros Hn.
  rewrite <- (walk_dominant steep dx dy y_step (range_from x0 n) 0 y0) at 2.
  apply (map_determined (fun p : point => if steep then snd p else fst p)).
  eapply Forall_impl;
    [| apply (walk_on_track steep dx dy y_step x0 y0 dx_pos dy_range
                y_step_unit n x0 0 y0); lia].
  cbv beta. intros p (px & py & -> & Htrack).
  rewrite (on_track_ordinate px py Htrack) at 1.
  unfold emit. destruct steep; reflexivity.
Qed.
End WalkClosedForm.

Lemma bresenham_line_gentle x0 y0 x1 y1 :
  x0 < x1 -> Z.abs (y1 - y0) <= x1 - x0 ->
  bresenham_line x0 y0 x1 y1
  = walk false (x1 - x0) (Z.abs (y1 - y0)) (if y1 >? y0 then 1 else -1)
      (range x0 (x1 + 1)) 0 y0.
Proof.
  intros Hlt Hdy. unfold bresenham_line.
  destruct (x0 =? x1) eqn:E; zbool; [lia|]. cbv zeta.
  destruct (Z.abs (y1 - y0) >? Z.abs (x1 - x0)) eqn:Hsteep; zbool; [lia|].
  destruct (x0 >? x1) eqn:Hswap; zbool; [lia|].
  rewrite line_loop_walk. cbn [ls_points ls_error ls_y app].
  f_equal. lia.
Qed.

Lemma bresenham_line_steep x0 y0 x1 y1 :
  y0 < y1 -> Z.abs (x1 - x0) < y1 - y0 -> x0 <> x1 ->
  bresenham_line x0 y0 x1 y1
  = walk true (y1 - y0) (Z.abs (x1 - x0)) (if x1 >? x0 then 1 else -1)
      (range y0 (y1 + 1)) 0 x0.
Proof.
  intros Hlt Hdx Hne. unfold bresenham_line.
  destruct (x0 =? x1) eqn:E; zbool; [lia|]. cbv zeta.
  destruct (Z.abs (y1 - y0) >? Z.abs (x1 - x0)) eqn:Hsteep; zbool; [|lia].
  destruct (y0 >? y1) eqn:Hswap; zbool; [lia|].
  rewrite line_loop_walk. cbn [ls_points ls_error ls_y app].
  f_equal. lia.
Qed.

(** X16: for a segment given from left to right whose slope is at most
    1 in absolute value, the list returned by [bresenham_line] has, for
    each [x] from [x0] to [x1], the cell whose ordinate is [y0] plus or
    minus [(x - x0) * |y1 - y0| / (x1 - x0)] rounded to the nearest
    integer (a tie is rounded away from [y0]). *)
Theorem line_gentle_closed_form (x0 y0 x1 y1 : Z) :
  x0 < x1 -> Z.abs (y1 - y0) <= x1 - x0 ->
  bresenham_line x0 y0 x1 y1
  = map (fun x =>
           (x, y0 + (if y1 >? y0 then 1 else -1)
                    * ((2 * (x - x0) * Z.abs (y1 - y0) + (x1 - x0))
                       / (2 * (x1 - x0)))))
        (range x0 (x1 + 1)).
Proof.
  intros Hlt Hdy. rewrite bresenham_line_gentle by assumption.
  unfold range. rewrite walk_closed_form; [reflexivity | lia | lia | | lia].
  destruct (y1 >? y0); reflexivity.
Qed.

Lemma line_gentle_closed_form_witness :
  bresenham_line 0 0 5 2
  = map (fun x =>
           (x, 0 + (if 2 >? 0 then 1 else -1)
                   * ((2 * (x - 0) * Z.abs (2 - 0) + (5 - 0))
                      / (2 * (5 - 0)))))
        (range 0 (5 + 1)).
Proof. apply (line_gentle_closed_form 0 0 5 2); lia. Defined.

(** X17: for a segment given from bottom to top whose slope is more
    than 1 in absolute value (a vertical one included), the list has,
    for each [y] from [y0] to [y1], the cell whose abscissa is [x0]
    plus or minus [(y - y0) * |x1 - x0| / (y1 - y0)] rounded to the
    nearest integer (a tie is rounded away from [x0]). *)
Theorem line_steep_closed_form (x0 y0 x1 y1 : Z) :
  y0 < y1 -> Z.abs (x1 - x0) < y1 - y0 ->
  bresenham_line x0 y0 x1 y1
  = map (fun y =>
           (x0 + (if x1 >? x0 then 1 else -1)
                 * ((2 * (y - y0) * Z.abs (x1 - x0) + (y1 - y0))
                    / (2 * (y1 - y0))), y))
        (range y0 (y1 + 1)).
Proof.
  intros Hlt Hdx. destruct (Z.eq_dec x0 x1) as [<- | Hne].
  - rewrite bresenham_line_vertical.
    rewrite Z.min_l, Z.max_r by lia.
    apply map_ext_in. intros y Hy. apply range_In in Hy.
    rewrite Z.sub_diag. cbn [Z.abs]. rewrite Z.mul_0_r, Z.add_0_l.
    rewrite Z.div_small by lia. f_equal. lia.
  - rewrite bresenham_line_steep by assumption.
    unfold range.
    rewrite walk_closed_form; [reflexivity | lia | lia | | lia].
    destruct (x1 >? x0); reflexivity.
Qed.

Lemma line_steep_closed_form_witness :
  bresenham_line 0 0 2 5
  = map (fun y =>
           (0 + (if 2 >? 0 then 1 else -1)
                * ((2 * (y - 0) * Z.abs (2 - 0) + (5 - 0))
                   / (2 * (5 - 0))), y))
        (range 0 (5 + 1)).
Proof. apply (line_steep_closed_form 0 0 2 5); lia. Defined.

(** X18: for a radius [r >= 0] the squared distance to the center of
    every point of the list is at least [r^2 - r] and at most
    [r^2 + r + 2]. *)
Theorem circle_squared_distance_bounds (cx cy r : Z) (p : point) :
  0 <= r ->
  In p (bresenham_circle cx cy r) ->
  r * r - r <= sqdist p (cx, cy) <= r * r + r + 2.
Proof.
  intros Hr Hin.
  pose proof (bresenham_circle_near_radius cx cy r Hr) as Hall.
  rewrite Forall_forall in Hall. exact (Hall p Hin).
Qed.

Lemma circle_squared_distance_bounds_witness :
  20 * 20 - 20 <= sqdist (55, 43) (40, 30) <= 20 * 20 + 20 + 2.
Proof.
  apply (circle_squared_distance_bounds 40 30 20 (55, 43)); [lia|].
  vm_compute. do 120 right. left. reflexivity.
Defined.
